(** * Network-Visualization: the simulation core of [src/main.cpp]

    The C++ program moves 50 circular nodes under a pairwise attraction
    ([calculateForce], [updateForces]), a one-level Barnes-Hut stand-in
    ([applyBarnesHut]), a semi-implicit Euler step ([applyForces]) and a
    pairwise overlap correction ([overlap], [resolveOverlap]).

    The functions are embedded over the arithmetic of the C++ types
    [float] and [double] taken as an interface ([Arith]), so that what
    follows from the shape of the code alone is proved for every
    arithmetic; the interface is instantiated with [IEEE], binary32 and
    binary64 as specified by [SpecFloat] (round to nearest even, signed
    zeros, infinities, NaN), which is what the compiled program computes
    and which evaluates inside Rocq.  Where a statement speaks of the exact
    value of a float, that value is a rational ([SF2Q]). *)

From stdpp Require Import base list.
From Stdlib Require Import ZArith QArith Qpower Qfield Lia.
From Stdlib Require Import Floats.SpecFloat.

Close Scope Q_scope.
Set Default Proof Using "Type".

(** ** The arithmetic interface *)

(** [flt] is C++ [float], [dbl] is C++ [double].  The unqualified calls
    [pow(x, 2)] and [sqrt(..)] of the source resolve to the [double]
    functions of [<cmath>], so their float arguments are widened and their
    results narrowed when stored in a [float]. *)
Class Arith := {
  flt : Type;
  dbl : Type;
  fofZ : Z -> flt;                 (* int converted to float *)
  fadd : flt -> flt -> flt;
  fsub : flt -> flt -> flt;
  fmul : flt -> flt -> flt;
  fdiv : flt -> flt -> flt;
  fltb : flt -> flt -> bool;       (* x < y  *)
  fneqb : flt -> flt -> bool;      (* x != y *)
  widen : flt -> dbl;              (* float to double *)
  narrow : dbl -> flt;             (* double to float *)
  dadd : dbl -> dbl -> dbl;
  ddiv : dbl -> dbl -> dbl;
  dsqrt : dbl -> dbl;              (* sqrt(double) *)
  dpow2 : dbl -> dbl;              (* pow(x, 2) *)
  dltb : dbl -> dbl -> bool
}.

(** ** IEEE 754 instance *)

Module B32.
Definition prec : Z := 24.
Definition emax : Z := 128.
Definition ofZ (z : Z) : spec_float := binary_normalize prec emax z 0 false.
Definition add := SFadd prec emax.
Definition sub := SFsub prec emax.
Definition mul := SFmul prec emax.
Definition div := SFdiv prec emax.
Definition ltb := SFltb.
Definition neqb (x y : spec_float) : bool := negb (SFeqb x y).
(** the value of a [double], rounded to the nearest [float] *)
Definition of_b64 (x : spec_float) : spec_float :=
  match x with
  | S754_finite s m e => binary_round prec emax s m e
  | _ => x
  end.
End B32.

Module B64.
Definition prec : Z := 53.
Definition emax : Z := 1024.
Definition add := SFadd prec emax.
Definition mul := SFmul prec emax.
Definition div := SFdiv prec emax.
Definition sqrt := SFsqrt prec emax.
Definition ltb := SFltb.
(** every [float] is a [double]: the conversion only renormalises *)
Definition of_b32 (x : spec_float) : spec_float :=
  match x with
  | S754_finite s m e => binary_round prec emax s m e
  | _ => x
  end.
(** [pow(x, 2)]: the square, exact whenever [x] came from a [float] *)
Definition pow2 (x : spec_float) : spec_float := mul x x.
End B64.

Definition IEEE : Arith := {|
  flt := spec_float;
  dbl := spec_float;
  fofZ := B32.ofZ;
  fadd := B32.add;
  fsub := B32.sub;
  fmul := B32.mul;
  fdiv := B32.div;
  fltb := B32.ltb;
  fneqb := B32.neqb;
  widen := B64.of_b32;
  narrow := B32.of_b64;
  dadd := B64.add;
  ddiv := B64.div;
  dsqrt := B64.sqrt;
  dpow2 := B64.pow2;
  dltb := B64.ltb
|}.

(** ** The program *)

Section Program.
Context {A : Arith}.

(** [sf::Vector2f] with the operators the program uses. *)
Record Vector2f := mkVec { vx : flt; vy : flt }.

Definition vadd (l r : Vector2f) : Vector2f :=
  mkVec (fadd (vx l) (vx r)) (fadd (vy l) (vy r)).
Definition vsub (l r : Vector2f) : Vector2f :=
  mkVec (fsub (vx l) (vx r)) (fsub (vy l) (vy r)).
(** [operator *(Vector2f, float)] *)
Definition vscale (l : Vector2f) (r : flt) : Vector2f :=
  mkVec (fmul (vx l) r) (fmul (vy l) r).
(** [operator *(float, Vector2f)] *)
Definition vscale_l (l : flt) (r : Vector2f) : Vector2f :=
  mkVec (fmul (vx r) l) (fmul (vy r) l).
Definition vdiv (l : Vector2f) (r : flt) : Vector2f :=
  mkVec (fdiv (vx l) r) (fdiv (vy l) r).

(** [Vector2f(0, 0)] and [Vector2f(0.f, 0.f)] *)
Definition vzero : Vector2f := mkVec (fofZ 0) (fofZ 0).

(** The literals [0.1f] and [0.5f]: the floats nearest to 1/10 and 1/2,
    which is what a correctly rounded division of the two integers gives. *)
Definition G : flt := fdiv (fofZ 1) (fofZ 10).
Definition theta : flt := fdiv (fofZ 1) (fofZ 2).

(** [sf::CircleShape]: the radius and the position it is drawn at. *)
Record CircleShape := mkShape { getRadius : flt; getPosition : Vector2f }.

Definition setPosition (s : CircleShape) (p : Vector2f) : CircleShape :=
  mkShape (getRadius s) p.

Record Node := mkNode {
  position : Vector2f;
  velocity : Vector2f;
  force : Vector2f;
  shape : CircleShape;
  color : Z * Z * Z
}.

Definition set_position (n : Node) (p : Vector2f) : Node :=
  mkNode p (velocity n) (force n) (shape n) (color n).
Definition set_velocity (n : Node) (v : Vector2f) : Node :=
  mkNode (position n) v (force n) (shape n) (color n).
Definition set_force (n : Node) (f : Vector2f) : Node :=
  mkNode (position n) (velocity n) f (shape n) (color n).
Definition set_shape (n : Node) (s : CircleShape) : Node :=
  mkNode (position n) (velocity n) (force n) s (color n).

(** [sqrt(pow(x, 2) + pow(y, 2))], a [double] *)
Definition dnorm (x y : flt) : dbl :=
  dsqrt (dadd (dpow2 (widen x)) (dpow2 (widen y))).

(** the same, stored in a [float] variable *)
Definition norm (x y : flt) : flt := narrow (dnorm x y).

(** the two coordinates of a vector *)
Definition coords (v : Vector2f) : flt * flt := (vx v, vy v).

(** the length of a vector, as the program computes it *)
Definition vnorm (v : Vector2f) : flt := norm (vx v) (vy v).

(** the [distance] of [calculateForce(a, b)] *)
Definition separation (a b : Node) : flt := vnorm (vsub (position b) (position a)).

Definition calculateForce (a b : Node) : Vector2f :=
  let direction := vsub (position b) (position a) in
  let distance := norm (vx direction) (vy direction) in
  let direction :=
    if fneqb distance (fofZ 0) then vdiv direction distance else direction in
  let forceMagnitude :=
    narrow (ddiv (widen (fmul (fmul G (getRadius (shape a))) (getRadius (shape b))))
                 (dpow2 (widen distance))) in
  vscale direction forceMagnitude.

Definition applyForces (node : Node) (timeStep : flt) : Node :=
  let node := set_velocity node (vadd (velocity node) (vscale (force node) timeStep)) in
  let node := set_position node (vadd (position node) (vscale (velocity node) timeStep)) in
  let node := set_force node vzero in
  set_shape node (setPosition (shape node) (position node)).

(** ** The vector of nodes

    A [Node&] that refers to an element of [std::vector<Node> nodes] is
    the index of that element, and [&node != &otherNode] compares indices.
    Every function below is called by [main] with indices in range; out of
    range (undefined behaviour in C++) the model leaves the vector as it
    is. *)

(** [for (auto& x : nodes) body]: the vector is never resized, so the
    loop runs over the indices it has on entry. *)
Definition for_each {S : Type} (nodes : list Node) (body : nat -> S -> S) (s : S) : S :=
  foldl (fun s i => body i s) s (seq 0 (length nodes)).

Definition updateForces (i : nat) (nodes : list Node) : list Node :=
  for_each nodes (fun j ns =>
    if decide (i <> j) then
      match ns !! i, ns !! j with
      | Some node, Some otherNode =>
          <[i := set_force node (vadd (force node) (calculateForce node otherNode))]> ns
      | _, _ => ns
      end
    else ns) nodes.

(** [{ .position = centerOfMass, .shape = CircleShape(size) }]: the other
    members are value-initialised. *)
Definition aggregate (centerOfMass : Vector2f) (size : flt) : Node :=
  mkNode centerOfMass vzero vzero (mkShape size vzero) (0, 0, 0)%Z.

Definition applyBarnesHut (i : nat) (nodes : list Node) (center : Vector2f) (size : flt)
  : list Node :=
  match nodes !! i with
  | None => nodes
  | Some node =>
      if dltb (ddiv (widen size)
                    (dnorm (fsub (vx center) (vx (position node)))
                           (fsub (vy center) (vy (position node)))))
              (widen theta)
      then
        match nodes !! 0%nat with
        | Some first =>
            <[i := set_force node (vadd (force node) (calculateForce node first))]> nodes
        | None => nodes
        end
      else
        let '(centerOfMass, totalMass) :=
          for_each nodes (fun j '(c, m) =>
            if decide (i <> j) then
              match nodes !! j with
              | Some otherNode =>
                  (vadd c (vscale_l (getRadius (shape otherNode)) (position otherNode)),
                   fadd m (getRadius (shape otherNode)))
              | None => (c, m)
              end
            else (c, m)) (vzero, fofZ 0) in
        let centerOfMass := vdiv centerOfMass totalMass in
        <[i := set_force node
                 (vadd (force node) (calculateForce node (aggregate centerOfMass size)))]> nodes
  end.

Definition overlap (a b : Node) : bool :=
  let distance := norm (fsub (vx (position a)) (vx (position b)))
                       (fsub (vy (position a)) (vy (position b))) in
  fltb distance (fadd (getRadius (shape a)) (getRadius (shape b))).

(** [resolveOverlap(a, b)] on two distinct objects; the pair is the state
    of [a] and of [b] after the call. *)
Definition resolveOverlap (a b : Node) : Node * Node :=
  let direction := vsub (position a) (position b) in
  let distance := norm (vx direction) (vy direction) in
  let overlapAmount :=
    fdiv (fsub (fadd (getRadius (shape a)) (getRadius (shape b))) distance) (fofZ 2) in
  let direction := vdiv direction distance in
  let a := set_position a (vadd (position a) (vscale direction overlapAmount)) in
  let b := set_position b (vsub (position b) (vscale direction overlapAmount)) in
  let a := set_shape a (setPosition (shape a) (position a)) in
  let b := set_shape b (setPosition (shape b) (position b)) in
  (a, b).

(** ** [main]: set-up and one turn of the window loop *)

(** One node of the set-up loop; [x], [y] are the two [rand()] remainders
    and [c] the random colour. *)
Definition initNode (r : Z * Z * (Z * Z * Z)) : Node :=
  let '(x, y, c) := r in
  let p := mkVec (fofZ x) (fofZ y) in
  mkNode p vzero vzero (setPosition (mkShape (fofZ 10) vzero) p) c.

Definition initNodes (rs : list (Z * Z * (Z * Z * Z))) : list Node := map initNode rs.

(** the literal [0.1f] passed to [applyForces] *)
Definition timeStep : flt := fdiv (fofZ 1) (fofZ 10).

Definition accumulatePhase (nodes : list Node) : list Node :=
  for_each nodes updateForces nodes.

Definition barnesHutPhase (center : Vector2f) (size : flt) (nodes : list Node) : list Node :=
  for_each nodes (fun i ns => applyBarnesHut i ns center size) nodes.

Definition integratePhase (nodes : list Node) : list Node :=
  for_each nodes (fun i ns => alter (fun n => applyForces n timeStep) i ns) nodes.

Definition resolveAt (i j : nat) (nodes : list Node) : list Node :=
  match nodes !! i, nodes !! j with
  | Some node, Some otherNode =>
      if bool_decide (i <> j) && overlap node otherNode then
        let '(a, b) := resolveOverlap node otherNode in
        <[j := b]> (<[i := a]> nodes)
      else nodes
  | _, _ => nodes
  end.

Definition collisionPhase (nodes : list Node) : list Node :=
  for_each nodes (fun i ns => for_each nodes (fun j ns => resolveAt i j ns) ns) nodes.

(** The simulation part of one turn of [while (window.isOpen())];
    [center] and [size] are what the window's view reports. *)
Definition tick (center : Vector2f) (size : flt) (nodes : list Node) : list Node :=
  collisionPhase (integratePhase (barnesHutPhase center size (accumulatePhase nodes))).

(** The states of [nodes] at the top of the window loop. *)
Inductive reachable : list Node -> Prop :=
| reach_init rs : length rs = 50%nat -> reachable (initNodes rs)
| reach_tick center size nodes :
    reachable nodes -> reachable (tick center size nodes).

(** [ns] is [nodes] except, possibly, for the force of node [i]. *)
Definition force_only (i : nat) (nodes ns : list Node) : Prop :=
  exists f, ns = alter (fun n => set_force n f) i nodes.

Definition force_cleared (n : Node) : Prop := force n = vzero.

(** [n] calls of [applyForces] on one node. *)
Fixpoint integrateN (n : nat) (node : Node) (dt : flt) : Node :=
  match n with
  | O => node
  | S n => integrateN n (applyForces node dt) dt
  end.
End Program.

(** ** Values of the binary32 instance *)

(** the float [(-1)^s * m * 2^e] *)
Definition f32 (s : bool) (m : positive) (e : Z) : @flt IEEE := S754_finite s m e.

(** a node of the binary32 instance at the integer point [(x, y)] with
    integer radius [r], at rest *)
Definition nodeI (x y r : Z) : @Node IEEE :=
  @mkNode IEEE (@mkVec IEEE (B32.ofZ x) (B32.ofZ y)) (@vzero IEEE) (@vzero IEEE)
          (@mkShape IEEE (B32.ofZ r) (@mkVec IEEE (B32.ofZ x) (B32.ofZ y))) (0, 0, 0)%Z.

Definition nanv : @Vector2f IEEE := @mkVec IEEE S754_nan S754_nan.

Definition zero_or_nan (x : spec_float) : Prop :=
  match x with
  | S754_zero _ | S754_nan => True
  | _ => False
  end.

(** equal as floats, up to the sign of a zero *)
Definition same_float (x y : spec_float) : Prop :=
  x = y \/ (exists s s', x = S754_zero s /\ y = S754_zero s').

Definition is_number (x : spec_float) : Prop :=
  match x with
  | S754_zero _ | S754_finite _ _ _ => True
  | _ => False
  end.

(** the sign of a float; NaN has none *)
Definition sign_bit (x : spec_float) : option bool :=
  match x with
  | S754_nan => None
  | S754_zero s | S754_infinity s | S754_finite s _ _ => Some s
  end.

(** [x] is NaN or has the sign [s] *)
Definition signed (s : bool) (x : spec_float) : Prop :=
  sign_bit x = None \/ sign_bit x = Some s.

(** [r] is NaN or has the sign of [x] *)
Definition nan_or_sign_of (x r : spec_float) : Prop :=
  sign_bit r = None \/ sign_bit r = sign_bit x.

(** the rational a finite float stands for *)
Definition SF2Q (x : spec_float) : Q :=
  match x with
  | S754_finite s m e => ((if s then -1 else 1) * inject_Z (Zpos m) * 2 ^ e)%Q
  | _ => 0%Q
  end.


(** ** Operations that do not round

    [exact_add x y] and its siblings say that the float operation of the
    program, applied to [x] and [y], returns a number whose exact value is
    the exact result of the operation on the exact values of [x] and [y]. *)

Definition exact_add (x y : spec_float) : Prop :=
  is_number (@fadd IEEE x y) /\ (SF2Q (@fadd IEEE x y) == SF2Q x + SF2Q y)%Q.

Definition exact_sub (x y : spec_float) : Prop :=
  is_number (@fsub IEEE x y) /\ (SF2Q (@fsub IEEE x y) == SF2Q x - SF2Q y)%Q.

Definition exact_mul (x y : spec_float) : Prop :=
  is_number (@fmul IEEE x y) /\ (SF2Q (@fmul IEEE x y) == SF2Q x * SF2Q y)%Q.

Definition exact_div (x y : spec_float) : Prop :=
  is_number (@fdiv IEEE x y) /\ ~ (SF2Q y == 0)%Q /\
  (SF2Q (@fdiv IEEE x y) == SF2Q x / SF2Q y)%Q.

(** the distance the program computes is the exact length of [(x, y)] *)
Definition exact_norm (x y : spec_float) : Prop :=
  is_number (@norm IEEE x y) /\
  (SF2Q (@norm IEEE x y) * SF2Q (@norm IEEE x y) == SF2Q x * SF2Q x + SF2Q y * SF2Q y)%Q.

(** No operation of [resolveOverlap(a, b)] rounds: the fourteen operations
    of the function, in the order of the source. *)
Definition exact_resolveOverlap (a b : @Node IEEE) : Prop :=
  let dx := @fsub IEEE (vx (position a)) (vx (position b)) in
  let dy := @fsub IEEE (vy (position a)) (vy (position b)) in
  let distance := @norm IEEE dx dy in
  let sum := @fadd IEEE (getRadius (shape a)) (getRadius (shape b)) in
  let overlapAmount := @fdiv IEEE (@fsub IEEE sum distance) (@fofZ IEEE 2) in
  let ux := @fdiv IEEE dx distance in
  let uy := @fdiv IEEE dy distance in
  exact_sub (vx (position a)) (vx (position b)) /\
  exact_sub (vy (position a)) (vy (position b)) /\
  exact_norm dx dy /\
  exact_add (getRadius (shape a)) (getRadius (shape b)) /\
  exact_sub sum distance /\
  exact_div (@fsub IEEE sum distance) (@fofZ IEEE 2) /\
  exact_div dx distance /\
  exact_div dy distance /\
  exact_mul ux overlapAmount /\
  exact_mul uy overlapAmount /\
  exact_add (vx (position a)) (@fmul IEEE ux overlapAmount) /\
  exact_add (vy (position a)) (@fmul IEEE uy overlapAmount) /\
  exact_sub (vx (position b)) (@fmul IEEE ux overlapAmount) /\
  exact_sub (vy (position b)) (@fmul IEEE uy overlapAmount).

(** equal component by component, up to the sign of a zero *)
Definition same_vec (u v : @Vector2f IEEE) : Prop :=
  same_float (vx u) (vx v) /\ same_float (vy u) (vy v).

(** [p] after [n] float additions of [inc] *)
Definition addN (n : nat) (inc p : @Vector2f IEEE) : @Vector2f IEEE :=
  Nat.iter n (fun p => @vadd IEEE p inc) p.

(** the opposite vector *)
Definition vopp (v : @Vector2f IEEE) : @Vector2f IEEE :=
  @mkVec IEEE (SFopp (vx v)) (SFopp (vy v)).

(** ** The net force on a node, the drawn shapes and the edges *)

(** The edges of [main] join [&nodes[i]] and [&nodes[j]] for [i < j], in
    this order of [push_back]. *)
Definition edgePairs (n : nat) : list (nat * nat) :=
  seq 0 n ≫= (fun i => pair i <$> seq (S i) (n - S i)).

Section Scene.
Context {A : Arith}.

(** What [updateForces(node, nodes)] leaves in [node.force]: the force
    [node] had, plus the pull of every other node in index order. *)
Definition netForce (i : nat) (node : Node) (nodes : list Node) : Vector2f :=
  for_each nodes (fun j f =>
    if decide (i <> j) then
      match nodes !! j with
      | Some otherNode => vadd f (calculateForce node otherNode)
      | None => f
      end
    else f) (force node).

(** the shape is drawn where the node is *)
Definition synced (n : Node) : Prop := getPosition (shape n) = position n.

(** [struct Edge]: the two [Node*] are indices into [nodes], [line] is the
    position of the two vertices of the [VertexArray]; the member [color]
    is called [edgeColor] here. *)
Record Edge := mkEdge {
  source : nat;
  target : nat;
  line : Vector2f * Vector2f;
  edgeColor : Z * Z * Z
}.

(** The edge loop of [main] over [n] nodes; [colors k] is the result of the
    [k]-th call of [getRandomColor] in it, and [VertexArray(Lines, 2)] has
    both vertices at the origin. *)
Definition buildEdges (n : nat) (colors : nat -> Z * Z * Z) : list Edge :=
  imap (fun k '(i, j) => mkEdge i j (vzero, vzero) (colors k)) (edgePairs n).

Definition endpoints (e : Edge) : nat * nat := (source e, target e).
End Scene.

(** ** Facts that hold in every arithmetic *)

Section Generic.
Context {A : Arith}.
Implicit Types (n node : Node) (nodes ns : list Node) (i j k : nat).

Lemma set_force_set_force n f f' : set_force (set_force n f) f' = set_force n f'.
Proof. reflexivity. Qed.

Lemma set_force_id n : set_force n (force n) = n.
Proof. by destruct n. Qed.

(** A loop keeps whatever each of its turns keeps. *)
Lemma for_each_inv {S : Type} (P : S -> Prop) nodes (body : nat -> S -> S) (s : S) :
  P s -> (forall i s, P s -> P (body i s)) -> P (for_each nodes body s).
Proof.
  unfold for_each. generalize (seq 0 (length nodes)). intros l. revert s.
  induction l as [|i l IH]; intros s Hs Hbody; simpl; [done|].
  apply IH; auto.
Qed.

Lemma force_only_refl i nodes : force_only i nodes nodes.
Proof.
  destruct (nodes !! i) as [n|] eqn:Hi.
  - exists (force n). apply list_eq. intros k.
    destruct (decide (k = i)) as [->|Hk].
    + rewrite list_lookup_alter_eq, Hi. simpl. by rewrite set_force_id.
    + by rewrite list_lookup_alter_ne.
  - exists vzero. apply list_eq. intros k.
    destruct (decide (k = i)) as [->|Hk].
    + by rewrite list_lookup_alter_eq, Hi.
    + by rewrite list_lookup_alter_ne.
Qed.

Lemma force_only_insert i nodes ns n f :
  force_only i nodes ns -> ns !! i = Some n ->
  force_only i nodes (<[i := set_force n f]> ns).
Proof.
  intros [f0 ->] Hi. exists f. apply list_eq. intros k.
  rewrite list_lookup_alter_eq in Hi.
  destruct (nodes !! i) as [n0|] eqn:Hn0; simpl in Hi; [|done].
  injection Hi as <-.
  assert (i < length nodes) by (by eapply lookup_lt_Some).
  destruct (decide (k = i)) as [->|Hk].
  - rewrite list_lookup_insert_eq by (by rewrite length_alter).
    by rewrite list_lookup_alter_eq, Hn0.
  - rewrite list_lookup_insert_ne by done.
    by rewrite !list_lookup_alter_ne.
Qed.

Lemma updateForces_force_only i nodes : force_only i nodes (updateForces i nodes).
Proof.
  unfold updateForces. apply for_each_inv; [apply force_only_refl|].
  intros j ns Hns. destruct (decide (i <> j)); [|done].
  destruct (ns !! i) as [node|] eqn:Hi; [|done].
  destruct (ns !! j) as [other|]; [|done].
  by apply force_only_insert.
Qed.

Lemma applyBarnesHut_force_only i nodes center size :
  force_only i nodes (applyBarnesHut i nodes center size).
Proof.
  unfold applyBarnesHut.
  destruct (nodes !! i) as [node|] eqn:Hi; [|apply force_only_refl].
  destruct (dltb _ _).
  - destruct (nodes !! 0%nat); [|apply force_only_refl].
    apply force_only_insert; [apply force_only_refl|done].
  - destruct (for_each _ _ _) as [c m].
    apply force_only_insert; [apply force_only_refl|done].
Qed.

Lemma fmap_alter_set_force {B : Type} (g : Node -> B) i nodes f :
  (forall n, g (set_force n f) = g n) ->
  g <$> alter (fun n => set_force n f) i nodes = g <$> nodes.
Proof.
  intros Hg. apply list_eq. intros k. rewrite !list_lookup_fmap.
  destruct (decide (k = i)) as [->|Hk].
  - rewrite list_lookup_alter_eq. destruct (nodes !! i); simpl; [|done].
    by rewrite Hg.
  - by rewrite list_lookup_alter_ne.
Qed.
(** With a distance that is not zero, [calculateForce(a, b)] is the
    normalised direction times the magnitude, in every arithmetic. *)
Lemma calculateForce_nonzero (a b : Node) :
  let d := separation a b in
  fneqb d (fofZ 0) = true ->
  calculateForce a b
  = vscale (vdiv (vsub (position b) (position a)) d)
      (narrow (ddiv (widen (fmul (fmul G (getRadius (shape a))) (getRadius (shape b))))
                    (dpow2 (widen d)))).
Proof.
  intros d Hd. unfold calculateForce.
  change (norm (vx (vsub (position b) (position a))) (vy (vsub (position b) (position a))))
    with d.
  by rewrite Hd.
Qed.

(** [resolveOverlap(a, b)] adds to the position of [a] the vector it
    subtracts from the position of [b], and changes nothing else of the two
    bodies but the place their shapes are drawn at, in every arithmetic. *)
Lemma resolveOverlap_opposite_updates (a b : Node) :
  exists delta,
    fst (resolveOverlap a b)
    = set_shape (set_position a (vadd (position a) delta))
        (setPosition (shape a) (vadd (position a) delta)) /\
    snd (resolveOverlap a b)
    = set_shape (set_position b (vsub (position b) delta))
        (setPosition (shape b) (vsub (position b) delta)).
Proof. eexists. split; reflexivity. Qed.

(** C3. [applyForces(node, timeStep)] first adds [force * timeStep] to the
    velocity, then adds the new velocity times [timeStep] to the position
    (semi-implicit Euler), then sets the force to zero.  Radius and colour
    are kept, and the drawn shape is moved to the new position; the new
    velocity, position and force depend on nothing but the old velocity,
    position, force and [timeStep]. *)
Theorem applyForces_semi_implicit_euler node (dt : flt) :
  let v' := vadd (velocity node) (vscale (force node) dt) in
  let p' := vadd (position node) (vscale v' dt) in
  velocity (applyForces node dt) = v' /\
  position (applyForces node dt) = p' /\
  force (applyForces node dt) = vzero /\
  getRadius (shape (applyForces node dt)) = getRadius (shape node) /\
  getPosition (shape (applyForces node dt)) = p' /\
  color (applyForces node dt) = color node.
Proof. by destruct node as [p v f [r sp] c]. Qed.

(** C10. [updateForces(node, nodes)] changes nothing but the accumulated
    force of [node]: the vector keeps its length, every node keeps its
    position, velocity, shape (hence radius) and colour, and the forces
    after the call are the forces before it with at most the entry of
    [node] replaced. *)
Theorem updateForces_frame i nodes :
  length (updateForces i nodes) = length nodes /\
  position <$> updateForces i nodes = position <$> nodes /\
  velocity <$> updateForces i nodes = velocity <$> nodes /\
  shape <$> updateForces i nodes = shape <$> nodes /\
  color <$> updateForces i nodes = color <$> nodes /\
  exists f, force <$> updateForces i nodes = <[i := f]> (force <$> nodes).
Proof.
  destruct (updateForces_force_only i nodes) as [f ->].
  rewrite length_alter, !fmap_alter_set_force by done.
  repeat split. exists f. apply list_eq. intros k.
  destruct (decide (k = i)) as [->|Hk].
  - rewrite list_lookup_fmap, list_lookup_alter_eq.
    destruct (nodes !! i) as [n|] eqn:Hi; simpl.
    + rewrite list_lookup_insert_eq; [done|].
      rewrite length_fmap. by eapply lookup_lt_Some.
    + rewrite list_insert_ge; [by rewrite list_lookup_fmap, Hi|].
      rewrite length_fmap. by apply lookup_ge_None.
  - rewrite list_lookup_insert_ne by done.
    by rewrite !list_lookup_fmap, list_lookup_alter_ne.
Qed.

(** *** The force accumulator across the window loop *)

Lemma initNodes_force_cleared rs : Forall force_cleared (initNodes rs).
Proof.
  unfold initNodes. apply Forall_fmap, Forall_forall.
  by intros [[x y] c] _.
Qed.

(** The integrate loop applies [applyForces] to every node. *)
Lemma alter_each (f : Node -> Node) (pre rest : list Node) :
  foldl (fun ns i => alter f i ns) (pre ++ rest) (seq (length pre) (length rest))
  = pre ++ (f <$> rest).
Proof.
  revert pre. induction rest as [|n rest IH]; intros pre; simpl; [done|].
  rewrite alter_app_r_alt by done. rewrite Nat.sub_diag. simpl.
  specialize (IH (pre ++ [f n])).
  rewrite length_app, Nat.add_1_r in IH. simpl in IH.
  by rewrite <- !(assoc_L (++)) in IH.
Qed.

Lemma integratePhase_map nodes :
  integratePhase nodes = (fun n => applyForces n timeStep) <$> nodes.
Proof. apply (alter_each _ [] nodes). Qed.

Lemma integratePhase_force_cleared nodes : Forall force_cleared (integratePhase nodes).
Proof.
  rewrite integratePhase_map. apply Forall_fmap, Forall_forall.
  by intros n _.
Qed.

Lemma resolveAt_force_cleared i j ns :
  Forall force_cleared ns -> Forall force_cleared (resolveAt i j ns).
Proof.
  intros Hns. unfold resolveAt.
  destruct (ns !! i) as [a|] eqn:Ha; [|done].
  destruct (ns !! j) as [b|] eqn:Hb; [|done].
  destruct (_ && _); [|done].
  pose proof (Forall_lookup_1 _ _ _ _ Hns Ha) as Hfa.
  pose proof (Forall_lookup_1 _ _ _ _ Hns Hb) as Hfb.
  simpl. by repeat apply Forall_insert.
Qed.

Lemma collisionPhase_force_cleared nodes :
  Forall force_cleared nodes -> Forall force_cleared (collisionPhase nodes).
Proof.
  intros Hns. unfold collisionPhase.
  apply for_each_inv; [done|]. intros i ns Hi.
  apply for_each_inv; [done|]. intros j ns' Hj.
  by apply resolveAt_force_cleared.
Qed.

(** C7. At the top of every turn of the window loop the accumulated force
    of every node is the zero vector: the set-up loop zeroes it, and in
    each turn the accumulation loops run before [applyForces], which
    clears it, and the overlap pass that follows does not touch it. *)
Theorem force_zero_at_tick_boundary nodes :
  reachable nodes -> Forall (fun n => force n = vzero) nodes.
Proof.
  induction 1 as [rs _|center size nodes _ _].
  - apply initNodes_force_cleared.
  - apply collisionPhase_force_cleared, integratePhase_force_cleared.
Qed.
End Generic.

Lemma force_zero_at_tick_boundary_witness :
  Forall (fun n => force n = vzero)
    (@tick IEEE (@mkVec IEEE (B32.ofZ 400) (B32.ofZ 300)) (B32.ofZ 800)
       (initNodes (replicate 50 (0, 0, (0, 0, 0))%Z))).
Proof.
  apply force_zero_at_tick_boundary.
  apply reach_tick, reach_init. reflexivity.
Defined.
(** ** Binary32 arithmetic *)

Section IEEEFacts.
#[local] Existing Instance IEEE.
Abbreviation NodeF := (@Node IEEE).

Lemma G_binary32 : @G IEEE = f32 false 13421773 (-27).
Proof. reflexivity. Qed.

(** Two floats that compare equal with [==] differ by a zero, or by NaN
    when they are the same infinity. *)
Lemma sub_of_equal (x y : spec_float) :
  SFeqb x y = true -> zero_or_nan (@fsub IEEE y x) /\ zero_or_nan (@fsub IEEE x y).
Proof.
  destruct x as [sx|sx| |sx mx ex], y as [sy|sy| |sy my ey];
    unfold SFeqb; simpl; try discriminate; intros H.
  all: try (by repeat match goal with s : bool |- _ => destruct s end).
  assert (sx = sy /\ ex = ey /\ mx = my) as (-> & -> & ->).
  { destruct sx, sy; try discriminate; destruct (Z.compare_spec ex ey);
      try discriminate; repeat split; try done;
      apply Pos.compare_eq_iff; unfold Pos.compare;
      by destruct (Pos.compare_cont Eq mx my). }
  rewrite Z.min_id. unfold shl_align.
  by rewrite !Z.sub_diag.
Qed.

(** C1.  On coincident bodies (equal positions, compared as [==]
    compares floats) [calculateForce] returns the vector (NaN, NaN),
    whatever the radii: the guard [distance != 0] skips the
    normalisation, but the magnitude is still divided by [distance]
    squared, and zero times the resulting infinity or NaN is NaN. *)
Theorem calculateForce_coincident_nan (a b : NodeF) :
  SFeqb (vx (position a)) (vx (position b)) = true ->
  SFeqb (vy (position a)) (vy (position b)) = true ->
  calculateForce a b = nanv.
Proof.
  intros Hx Hy. apply sub_of_equal in Hx as [Hx _], Hy as [Hy _].
  unfold calculateForce.
  set (X := widen (fmul (fmul G (getRadius (shape a))) (getRadius (shape b)))).
  clearbody X. unfold vsub. cbn [vx vy].
  set (dx := fsub (vx (position b)) (vx (position a))) in *.
  set (dy := fsub (vy (position b)) (vy (position a))) in *.
  clearbody dx dy.
  destruct dx as [sx|?| |? ? ?]; try done; destruct dy as [sy|?| |? ? ?]; try done;
    destruct X as [s|s| |s m e]; try destruct sx; try destruct sy; reflexivity.
Qed.

Lemma calculateForce_coincident_nan_witness :
  calculateForce (nodeI 0 0 10) (nodeI 0 0 10) = nanv.
Proof. apply calculateForce_coincident_nan; reflexivity. Defined.
Lemma add_nan_r (x : spec_float) : @fadd IEEE x S754_nan = S754_nan.
Proof. by destruct x. Qed.

Lemma sub_nan_r (x : spec_float) : @fsub IEEE x S754_nan = S754_nan.
Proof. by destruct x. Qed.

Lemma vadd_nan_r (v : @Vector2f IEEE) : vadd v nanv = nanv.
Proof. destruct v. unfold vadd, nanv. cbn [vx vy]. by rewrite !add_nan_r. Qed.

Lemma vsub_nan_r (v : @Vector2f IEEE) : vsub v nanv = nanv.
Proof. destruct v. unfold vsub, nanv. cbn [vx vy]. by rewrite !sub_nan_r. Qed.

(** C5.  On coincident bodies [resolveOverlap] divides the zero
    direction by the zero distance and stores (NaN, NaN) in the position
    of both bodies; no separation axis is chosen. *)
Theorem resolveOverlap_coincident_nan (a b : NodeF) :
  SFeqb (vx (position a)) (vx (position b)) = true ->
  SFeqb (vy (position a)) (vy (position b)) = true ->
  position (fst (resolveOverlap a b)) = nanv /\
  position (snd (resolveOverlap a b)) = nanv.
Proof.
  intros Hx Hy. apply sub_of_equal in Hx as [_ Hx], Hy as [_ Hy].
  unfold resolveOverlap. cbn [fst snd position set_shape set_position].
  set (dir := vsub (position a) (position b)).
  assert (Hdir : forall h, vscale (vdiv dir (norm (vx dir) (vy dir))) h = nanv).
  { intros h. unfold dir, vsub. cbn [vx vy].
    set (dx := fsub (vx (position a)) (vx (position b))) in *.
    set (dy := fsub (vy (position a)) (vy (position b))) in *.
    clearbody dx dy.
    destruct dx as [sx|?| |? ? ?]; try done; destruct dy as [sy|?| |? ? ?]; try done;
      try destruct sx; try destruct sy; reflexivity. }
  rewrite !Hdir. by rewrite vadd_nan_r, vsub_nan_r.
Qed.

Lemma resolveOverlap_coincident_nan_witness :
  position (fst (resolveOverlap (nodeI 5 5 10) (nodeI 5 5 10))) = nanv /\
  position (snd (resolveOverlap (nodeI 5 5 10) (nodeI 5 5 10))) = nanv.
Proof. apply resolveOverlap_coincident_nan; reflexivity. Defined.

(** The guard of [main] lets the call through: coincident nodes of
    radius 10 overlap, and the overlap pass leaves both without a
    position. *)
Lemma collisionPhase_coincident_nan :
  overlap (nodeI 5 5 10) (nodeI 5 5 10) = true /\
  position <$> collisionPhase [nodeI 5 5 10; nodeI 5 5 10] = [nanv; nanv].
Proof. split; reflexivity. Qed.

Lemma calculateForce_to_nan (a b : NodeF) :
  position b = nanv -> calculateForce a b = nanv.
Proof.
  intros Hb. unfold calculateForce. rewrite Hb.
  destruct a as [[ax ay] va fa sa ca]. reflexivity.
Qed.

(** C6.  With a single body in the vector no other body contributes,
    [totalMass] is zero, and the centroid branch divides the zero vector by
    it: the centre of mass is (NaN, NaN) and so is the force stored in the
    body, whatever force it had accumulated. *)
Theorem applyBarnesHut_single_nan (node : NodeF) (center : @Vector2f IEEE) (size : flt) :
  dltb (ddiv (widen size)
             (dnorm (fsub (vx center) (vx (position node)))
                    (fsub (vy center) (vy (position node)))))
       (widen theta) = false ->
  applyBarnesHut 0 [node] center size = [set_force node nanv].
Proof.
  intros Hfar. unfold applyBarnesHut.
  change ([node] !! 0%nat) with (Some node). cbv beta iota.
  rewrite Hfar. unfold for_each. cbn [length seq foldl].
  destruct (decide (0%nat <> 0%nat)) as [Hne|_]; [done|].
  change (vdiv vzero (fofZ 0)) with nanv.
  rewrite calculateForce_to_nan by done.
  by rewrite vadd_nan_r.
Qed.

Lemma applyBarnesHut_single_nan_witness :
  applyBarnesHut 0 [nodeI 0 0 10] (mkVec (fofZ 400) (fofZ 300)) (fofZ 800)
  = [set_force (nodeI 0 0 10) nanv].
Proof. apply applyBarnesHut_single_nan. reflexivity. Defined.

(** *** What rounding does to the exact identities *)

(** The example of the specification: radii 10 and 10, centres (0,0) and
    (100,0).  The force is (0.001f, 0): its length is the float nearest to
    1/1000, not the one nearest to 1/100. *)
Lemma calculateForce_example_binary32 :
  let a := nodeI 0 0 10 in
  let b := nodeI 100 0 10 in
  separation a b = fofZ 100 /\
  coords (calculateForce a b) = (f32 false 8589935 (-33), S754_zero false) /\
  vnorm (calculateForce a b) = fdiv (fofZ 1) (fofZ 1000) /\
  vnorm (calculateForce a b) <> fdiv (fofZ 1) (fofZ 100).
Proof. vm_compute. repeat split. intros H. discriminate H. Qed.

(** The overlap example of the specification: radii 10 and 10, centres
    (0,0) and (15,0) end up at (-2.5,0) and (17.5,0), exactly 20 apart. *)
Lemma resolveOverlap_example_binary32 :
  let a := nodeI 0 0 10 in
  let b := nodeI 15 0 10 in
  let a' := fst (resolveOverlap a b) in
  let b' := snd (resolveOverlap a b) in
  coords (position a') = (f32 true 10485760 (-22), S754_zero false) /\
  coords (position b') = (f32 false 9175040 (-19), S754_zero false) /\
  vnorm (vsub (position a') (position b')) = fofZ 20.
Proof. vm_compute. repeat split. Qed.


(** C9 in binary32, same two bodies: the positions add up to (1,2) before
    the call and to (16777212 * 2^-24, 16777212 * 2^-23), that is
    (0.99999976, 1.9999995), after it; the two displacements do not
    cancel. *)
Lemma resolveOverlap_binary32_midpoint_moves :
  let a := nodeI 0 0 10 in
  let b := nodeI 1 2 10 in
  let a' := fst (resolveOverlap a b) in
  let b' := snd (resolveOverlap a b) in
  fneqb (separation b a) (fofZ 0) = true /\
  coords (vadd (position a) (position b)) = (fofZ 1, fofZ 2) /\
  coords (vadd (position a') (position b'))
  = (f32 false 16777212 (-24), f32 false 16777212 (-23)) /\
  (SF2Q (vx (position a')) + SF2Q (vx (position b')) < 1)%Q /\
  coords (vadd (position a') (position b')) <> coords (vadd (position a) (position b)) /\
  coords (vadd (vsub (position a') (position a)) (vsub (position b') (position b)))
  <> coords vzero.
Proof. vm_compute. repeat split; intros H; discriminate H. Qed.

(** C8 in binary32: a body at (0,0) with velocity (1,0), no force and
    [dt = 0.1f].  After ten calls the velocity is still (1,0), but the
    position is (8388609 * 2^-23, 0) = (1.0000001, 0), whereas
    [position + velocity * dt * 10] is (1, 0).  And with an infinite time
    step one call turns the velocity into (NaN, NaN). *)
Lemma integrateN_binary32_drift :
  let node := set_velocity (nodeI 0 0 10) (mkVec (fofZ 1) (fofZ 0)) in
  coords (force node) = coords vzero /\
  coords (velocity (integrateN 10 node timeStep)) = coords (velocity node) /\
  coords (position (integrateN 10 node timeStep))
  = (f32 false 8388609 (-23), S754_zero false) /\
  coords (vadd (position node) (vscale (vscale (velocity node) timeStep) (fofZ 10)))
  = (fofZ 1, fofZ 0) /\
  coords (position (integrateN 10 node timeStep))
  <> coords (vadd (position node) (vscale (vscale (velocity node) timeStep) (fofZ 10))) /\
  coords (velocity (integrateN 1 node (S754_infinity false))) = (S754_nan, S754_nan).
Proof. vm_compute. repeat split; intros H; discriminate H. Qed.

(** In binary32 the velocity half of C8 survives: with no force and a
    time step that is a number, [applyForces] leaves each velocity
    component as it is, up to the sign of a zero. *)
Lemma add_zero_force (v dt : spec_float) :
  is_number dt -> same_float (fadd v (fmul (fofZ 0) dt)) v.
Proof.
  destruct dt as [sd|sd| |sd md ed]; try done; intros _;
    destruct v as [sv|sv| |sv mv ev]; try (by left);
    right; exists (if sv then (if sd then true else false) else false), sv;
    by destruct sv, sd.
Qed.

Lemma same_float_trans (x y z : spec_float) :
  same_float x y -> same_float y z -> same_float x z.
Proof.
  intros [Hxy|(s & s' & Hx & Hy)] [Hyz|(t & t' & Hy' & Hz)]; subst.
  - by left.
  - right. eauto.
  - right. eauto.
  - right. eauto.
Qed.

Lemma integrateN_velocity_binary32 (N : nat) (node : NodeF) (dt : spec_float) :
  is_number dt -> force node = vzero ->
  same_float (vx (velocity (integrateN N node dt))) (vx (velocity node)) /\
  same_float (vy (velocity (integrateN N node dt))) (vy (velocity node)).
Proof.
  intros Hdt. revert node. induction N as [|N IH]; intros node Hf.
  - split; by left.
  - cbn [integrateN]. destruct (IH (applyForces node dt)) as [Hx Hy]; [done|].
    split; (eapply same_float_trans; [eassumption|]);
      destruct node as [p [wx wy] f sh c]; simpl in Hf; subst f;
      apply add_zero_force, Hdt.
Qed.
End IEEEFacts.

(** ** The force law in binary32 *)

Section ForceLaw.
#[local] Existing Instance IEEE.

Lemma signed_round_aux (p em : Z) (s : bool) (mx ex : Z) (lx : location) :
  signed s (binary_round_aux p em s mx ex lx).
Proof.
  unfold binary_round_aux.
  destruct (shr_fexp p em mx ex lx) as [mrs e'].
  destruct (shr_fexp p em _ e' loc_Exact) as [mrs' e''].
  destruct (shr_m mrs') as [|m|m]; [by right| |by left].
  destruct (Z.leb e'' (em - p)); by right.
Qed.

Lemma signed_round (p em : Z) (s : bool) (m : positive) (e : Z) :
  signed s (binary_round p em s m e).
Proof.
  unfold binary_round. destruct (shl_align m e _) as [mz ez].
  apply signed_round_aux.
Qed.

Lemma signed_mul (p em : Z) (s t : bool) (x y : spec_float) :
  signed s x -> signed t y -> signed (xorb s t) (SFmul p em x y).
Proof.
  intros [Hx|Hx] [Hy|Hy]; destruct x as [sx|sx| |sx mx ex], y as [sy|sy| |sy my ey];
    simpl in *; try discriminate; try (by left);
    try injection Hx as ->; try injection Hy as ->; try (by right).
  apply signed_round_aux.
Qed.

Lemma signed_div (p em : Z) (s t : bool) (x y : spec_float) :
  signed s x -> signed t y -> signed (xorb s t) (SFdiv p em x y).
Proof.
  intros [Hx|Hx] [Hy|Hy]; destruct x as [sx|sx| |sx mx ex], y as [sy|sy| |sy my ey];
    simpl in *; try discriminate; try (by left);
    try injection Hx as ->; try injection Hy as ->; try (by right).
  destruct (SFdiv_core_binary _ _ _ _ _ _) as [[mz ez] lz].
  apply signed_round_aux.
Qed.

Lemma signed_widen (s : bool) (x : spec_float) : signed s x -> signed s (@widen IEEE x).
Proof.
  intros [Hx|Hx]; destruct x as [sx|sx| |sx mx ex]; simpl in *; try discriminate;
    try (by left); injection Hx as ->; try (by right).
  apply signed_round.
Qed.

Lemma signed_narrow (s : bool) (x : spec_float) : signed s x -> signed s (@narrow IEEE x).
Proof.
  intros [Hx|Hx]; destruct x as [sx|sx| |sx mx ex]; simpl in *; try discriminate;
    try (by left); injection Hx as ->; try (by right).
  apply signed_round.
Qed.

(** a square is never negative *)
Lemma signed_square (x : spec_float) : signed false (@dpow2 IEEE x).
Proof.
  destruct x as [s|s| |s m e]; try (by left); try (right; by destruct s).
  replace false with (xorb s s) by (by destruct s).
  apply signed_mul; by right.
Qed.

Lemma signed_add_pos (p em : Z) (x y : spec_float) :
  signed false x -> signed false y -> signed false (SFadd p em x y).
Proof.
  intros [Hx|Hx] [Hy|Hy]; destruct x as [sx|sx| |sx mx ex], y as [sy|sy| |sy my ey];
    simpl in *; try discriminate; try (by left);
    try injection Hx as ->; try injection Hy as ->; try (by right).
  apply signed_round.
Qed.

Lemma signed_sqrt (p em : Z) (x : spec_float) :
  signed false x -> signed false (SFsqrt p em x).
Proof.
  intros [Hx|Hx]; destruct x as [sx|sx| |sx mx ex]; simpl in *; try discriminate;
    try (by left); injection Hx as ->; try (by right).
  destruct (SFsqrt_core_binary _ _ _ _) as [[mz ez] lz].
  apply signed_round_aux.
Qed.

(** the distance the program computes is never negative *)
Lemma signed_norm (x y : spec_float) : signed false (@norm IEEE x y).
Proof.
  unfold norm, dnorm. apply signed_narrow, signed_sqrt, signed_add_pos; apply signed_square.
Qed.

Lemma signed_self (x : spec_float) : sign_bit x = None \/ exists s, sign_bit x = Some s /\ signed s x.
Proof. destruct x as [s|s| |s m e]; [right|right|left|right]; try done; exists s; split; by try right. Qed.

Lemma signed_component (dx d m : spec_float) :
  signed false d -> signed false m ->
  nan_or_sign_of dx (@fmul IEEE (@fdiv IEEE dx d) m).
Proof.
  intros Hd Hm. destruct (signed_self dx) as [Hnan|(s & Hs & Hdx)].
  - left. by destruct dx.
  - pose proof (signed_mul B32.prec B32.emax _ _ _ _
      (signed_div B32.prec B32.emax _ _ _ _ Hdx Hd) Hm) as H.
    rewrite !xorb_false_r in H. unfold nan_or_sign_of. rewrite Hs. exact H.
Qed.

(** C2, as the program computes it.  When the distance [d] the program
    computes is not zero, [calculateForce(a, b)] is the direction
    [(b.position - a.position) / d] times the magnitude
    [G * a.radius * b.radius / d^2], every operation being the float or
    double operation of the source and [G] the float nearest to 0.1.  For
    radii that are not negative, no component of the force has the sign
    opposite to that of [b.position - a.position]: each is NaN or carries
    the sign of that component, so the force never points away from [b].
    For radii 10 and 10 at distance 100 the magnitude is the float nearest
    to 1/1000. *)
Theorem calculateForce_binary32 (a b : @Node IEEE) :
  let d := separation a b in
  let ra := getRadius (shape a) in
  let rb := getRadius (shape b) in
  let forceMagnitude :=
    narrow (ddiv (widen (fmul (fmul G ra) rb)) (dpow2 (widen d))) in
  fneqb d (fofZ 0) = true ->
  calculateForce a b = vscale (vdiv (vsub (position b) (position a)) d) forceMagnitude /\
  @G IEEE = f32 false 13421773 (-27) /\
  (sign_bit ra = Some false -> sign_bit rb = Some false ->
     nan_or_sign_of (vx (vsub (position b) (position a))) (vx (calculateForce a b)) /\
     nan_or_sign_of (vy (vsub (position b) (position a))) (vy (calculateForce a b))) /\
  (ra = fofZ 10 -> rb = fofZ 10 -> d = fofZ 100 ->
     forceMagnitude = fdiv (fofZ 1) (fofZ 1000)).
Proof.
  intros d ra rb forceMagnitude Hd.
  assert (Hform : calculateForce a b
            = vscale (vdiv (vsub (position b) (position a)) d) forceMagnitude).
  { by apply calculateForce_nonzero. }
  split; [exact Hform|]. split; [reflexivity|]. split.
  - intros Hra Hrb. rewrite Hform.
    assert (Hsd : signed false d) by apply signed_norm.
    assert (Hsm : signed false forceMagnitude).
    { apply signed_narrow.
      apply (signed_div B64.prec B64.emax false false); [|apply signed_square].
      apply signed_widen.
      apply (signed_mul B32.prec B32.emax false false); [|by right].
      apply (signed_mul B32.prec B32.emax false false); by right. }
    split; apply signed_component; assumption.
  - intros Hra Hrb Hd100. unfold forceMagnitude. rewrite Hra, Hrb, Hd100.
    by vm_compute.
Qed.

Lemma calculateForce_binary32_witness :
  @calculateForce IEEE (nodeI 0 0 10) (nodeI 100 0 10)
  = vscale (vdiv (vsub (position (nodeI 100 0 10)) (position (nodeI 0 0 10)))
                 (separation (nodeI 0 0 10) (nodeI 100 0 10)))
      (narrow (ddiv (widen (fmul (fmul G (fofZ 10)) (fofZ 10)))
                    (dpow2 (widen (separation (nodeI 0 0 10) (nodeI 100 0 10)))))).
Proof.
  refine (proj1 (calculateForce_binary32 (nodeI 0 0 10) (nodeI 100 0 10) _)).
  reflexivity.
Defined.

(** C2, the value of the example and the sign of the radii.  For radii 10
    and 10 at distance 100 the force is (0.001f, 0) and its magnitude
    8589935 * 2^-33, the float nearest to 1/1000, not the float nearest to
    1/100.  And a body of radius -1 at (0,0) is pushed away from a body of
    radius 1 at (1,0): the force on it is (-0.1f, 0). *)
Lemma calculateForce_example_not_one_hundredth :
  coords (@calculateForce IEEE (nodeI 0 0 10) (nodeI 100 0 10))
  = (f32 false 8589935 (-33), S754_zero false) /\
  @vnorm IEEE (calculateForce (nodeI 0 0 10) (nodeI 100 0 10)) = B32.div (B32.ofZ 1) (B32.ofZ 1000) /\
  @vnorm IEEE (calculateForce (nodeI 0 0 10) (nodeI 100 0 10)) <> B32.div (B32.ofZ 1) (B32.ofZ 100) /\
  @fneqb IEEE (separation (nodeI 0 0 (-1)) (nodeI 1 0 1)) (B32.ofZ 0) = true /\
  coords (@vsub IEEE (position (nodeI 1 0 1)) (position (nodeI 0 0 (-1))))
  = (B32.ofZ 1, S754_zero false) /\
  coords (@calculateForce IEEE (nodeI 0 0 (-1)) (nodeI 1 0 1))
  = (f32 true 13421773 (-27), S754_zero true).
Proof. vm_compute. repeat split. intros H. discriminate H. Qed.
End ForceLaw.

(** ** Overlap resolution in binary32 *)

Section Resolution.
#[local] Existing Instance IEEE.
Local Open Scope Q_scope.






(** The hypothesis is met along a row of the integer grid on which [main]
    places the nodes: for radii 10 and centres (0,0) and (k,0), k from 1 to
    19, the pair overlaps and no operation of [resolveOverlap] rounds. *)
Lemma exact_resolveOverlap_on_a_row (k : Z) :
  (1 <= k <= 19)%Z ->
  overlap (nodeI 0 0 10) (nodeI k 0 10) = true /\
  exact_resolveOverlap (nodeI 0 0 10) (nodeI k 0 10).
Proof.
  intros Hk. destruct k as [|p|p]; try lia.
  do 5 (try destruct p as [p|p|]; try lia);
    vm_compute; repeat split; intros H; discriminate H.
Qed.


(** subtracting is adding the opposite, for all floats *)
Lemma fsub_as_fadd (x y : spec_float) : @fsub IEEE x y = @fadd IEEE x (SFopp y).
Proof.
  destruct x as [sx|sx| |sx mx ex], y as [sy|sy| |sy my ey]; simpl; try done;
    try (by destruct sx, sy).
Qed.

(** C9, as the program computes it.  [resolveOverlap(a, b)] adds one float
    vector [delta] to the position of [a] and its opposite to the position
    of [b], for every input; and when these two updates do not round (which
    needs a distance that is not zero), the sum of the two positions, hence
    their midpoint, is exactly what it was. *)
Theorem resolveOverlap_midpoint_when_exact (a b : @Node IEEE) :
  let d := separation b a in
  let delta :=
    vscale (vdiv (vsub (position a) (position b)) d)
      (fdiv (fsub (fadd (getRadius (shape a)) (getRadius (shape b))) d) (fofZ 2)) in
  let a' := fst (resolveOverlap a b) in
  let b' := snd (resolveOverlap a b) in
  position a' = vadd (position a) delta /\
  position b' = vadd (position b) (vopp delta) /\
  (exact_add (vx (position a)) (vx delta) ->
   exact_add (vy (position a)) (vy delta) ->
   exact_sub (vx (position b)) (vx delta) ->
   exact_sub (vy (position b)) (vy delta) ->
   SF2Q (vx (position a')) + SF2Q (vx (position b'))
   == SF2Q (vx (position a)) + SF2Q (vx (position b)) /\
   SF2Q (vy (position a')) + SF2Q (vy (position b'))
   == SF2Q (vy (position a)) + SF2Q (vy (position b))).
Proof.
  intros d delta a' b'.
  assert (Ha : position a' = vadd (position a) delta) by reflexivity.
  assert (Hb : position b' = vsub (position b) delta) by reflexivity.
  split; [exact Ha|]. split.
  - rewrite Hb. unfold vsub, vadd, vopp. cbn [vx vy]. by rewrite !fsub_as_fadd.
  - intros [_ Eax] [_ Eay] [_ Ebx] [_ Eby].
    rewrite Ha, Hb. unfold vadd, vsub. cbn [vx vy].
    rewrite Eax, Eay, Ebx, Eby. split; ring.
Qed.

Lemma resolveOverlap_midpoint_when_exact_witness :
  SF2Q (vx (position (fst (resolveOverlap (nodeI 0 0 10) (nodeI 15 0 10)))))
  + SF2Q (vx (position (snd (resolveOverlap (nodeI 0 0 10) (nodeI 15 0 10)))))
  == SF2Q (vx (position (nodeI 0 0 10))) + SF2Q (vx (position (nodeI 15 0 10))).
Proof.
  refine (proj1 (proj2 (proj2 (resolveOverlap_midpoint_when_exact
                                 (nodeI 0 0 10) (nodeI 15 0 10))) _ _ _ _));
    vm_compute; split; try done; intros H; discriminate H.
Defined.
End Resolution.

(** ** Integration in binary32 *)

Section Integration.
#[local] Existing Instance IEEE.

Lemma same_float_refl (x : spec_float) : same_float x x.
Proof. by left. Qed.

Lemma same_fadd (x x' y y' : spec_float) :
  same_float x x' -> same_float y y' -> same_float (fadd x y) (fadd x' y').
Proof.
  intros [->|(s & s' & -> & ->)] [->|(t & t' & -> & ->)]; [by left| | |].
  - destruct x' as [sx|sx| |sx mx ex]; try (by left); right; simpl.
    destruct sx, t, t'; eauto.
  - destruct y' as [sy|sy| |sy my ey]; try (by left); right; simpl.
    destruct sy, s, s'; eauto.
  - right; simpl. destruct s, s', t, t'; eauto.
Qed.

Lemma same_fmul (x x' m : spec_float) :
  same_float x x' -> same_float (fmul x m) (fmul x' m).
Proof.
  intros [->|(s & s' & -> & ->)]; [by left|].
  destruct m as [sm|sm| |sm mm em]; try (by left); right; simpl; eauto.
Qed.

Lemma same_SF2Q (x y : spec_float) :
  same_float x y -> (SF2Q x == SF2Q y)%Q /\ (is_number x <-> is_number y).
Proof. intros [->|(s & s' & -> & ->)]; by split. Qed.

Lemma same_vadd (p p' u u' : @Vector2f IEEE) :
  same_vec p p' -> same_vec u u' -> same_vec (vadd p u) (vadd p' u').
Proof. intros [Hx Hy] [Hx' Hy']. split; by apply same_fadd. Qed.

Lemma same_vscale (v v' : @Vector2f IEEE) (m : spec_float) :
  same_vec v v' -> same_vec (vscale v m) (vscale v' m).
Proof. intros [Hx Hy]. split; by apply same_fmul. Qed.

Lemma same_vec_trans (u v w : @Vector2f IEEE) : same_vec u v -> same_vec v w -> same_vec u w.
Proof. intros [Hx Hy] [Hx' Hy']. split; by eapply same_float_trans. Qed.

Lemma addN_succ_r (n : nat) (inc p : @Vector2f IEEE) :
  addN (S n) inc p = addN n inc (vadd p inc).
Proof. unfold addN. by rewrite Nat.iter_succ_r. Qed.

Lemma same_addN (n : nat) (inc p p' : @Vector2f IEEE) :
  same_vec p p' -> same_vec (addN n inc p) (addN n inc p').
Proof.
  intros Hp. induction n as [|n IH]; [done|].
  unfold addN in *. simpl. apply same_vadd; [exact IH|]. split; apply same_float_refl.
Qed.

(** with no force, one call keeps the velocity and adds it, times [dt],
    to the position *)
Lemma applyForces_no_force (node : @Node IEEE) (dt : spec_float) (v : @Vector2f IEEE) :
  is_number dt -> force node = vzero -> same_vec (velocity node) v ->
  force (applyForces node dt) = vzero /\
  same_vec (velocity (applyForces node dt)) v /\
  same_vec (position (applyForces node dt)) (vadd (position node) (vscale v dt)).
Proof.
  intros Hdt Hf Hv. destruct node as [p [wx wy] f sh c]. simpl in Hf. subst f.
  assert (Hv' : same_vec (vadd (mkVec wx wy) (vscale vzero dt)) v).
  { eapply same_vec_trans; [|exact Hv]. split; by apply add_zero_force. }
  split; [done|]. split; [exact Hv'|].
  apply same_vadd; [split; apply same_float_refl|]. by apply same_vscale.
Qed.

Lemma integrateN_no_force (N : nat) (node : @Node IEEE) (dt : spec_float)
    (v : @Vector2f IEEE) :
  is_number dt -> force node = vzero -> same_vec (velocity node) v ->
  force (integrateN N node dt) = vzero /\
  same_vec (velocity (integrateN N node dt)) v /\
  same_vec (position (integrateN N node dt)) (addN N (vscale v dt) (position node)).
Proof.
  intros Hdt. revert node. induction N as [|N IH]; intros node Hf Hv.
  - split; [done|]. split; [done|]. split; apply same_float_refl.
  - cbn [integrateN].
    destruct (applyForces_no_force node dt v Hdt Hf Hv) as (Hf' & Hv' & Hp').
    destruct (IH (applyForces node dt) Hf' Hv') as (Hf'' & Hv'' & Hp'').
    split; [done|]. split; [done|].
    eapply same_vec_trans; [exact Hp''|]. rewrite addN_succ_r. by apply same_addN.
Qed.

(** a sum of [n] additions that do not round *)
Lemma addN_exact (proj : @Vector2f IEEE -> spec_float) (n : nat) (inc p : @Vector2f IEEE) :
  (forall u w, proj (vadd u w) = fadd (proj u) (proj w)) ->
  (forall k, (k < n)%nat -> exact_add (proj (addN k inc p)) (proj inc)) ->
  (0 < n)%nat ->
  is_number (proj (addN n inc p)) /\
  (SF2Q (proj (addN n inc p)) == SF2Q (proj p) + inject_Z (Z.of_nat n) * SF2Q (proj inc))%Q.
Proof.
  intros Hproj Hex Hn. induction n as [|n IH]; [lia|].
  destruct (Hex n ltac:(lia)) as [Hnum Heq].
  change (addN (S n) inc p) with (vadd (addN n inc p) inc).
  rewrite Hproj. split; [exact Hnum|]. rewrite Heq.
  destruct n as [|n].
  - simpl. ring.
  - destruct IH as [_ IH]; [intros k Hk; apply Hex; lia|lia|].
    rewrite IH, !Nat2Z.inj_succ, <- !Z.add_1_r, !inject_Z_plus. ring.
Qed.

(** C8, as the program computes it.  Starting from a zero accumulated
    force, with a time step that is a number, [N] calls of [applyForces]
    leave the force zero and the velocity as it was, and move the position
    by [N] float additions of the one vector [velocity * dt] (both up to
    the sign of a zero component).  When the product [velocity * dt] and
    the [N] additions do not round, the position is exactly
    [position + velocity * dt * N]. *)
Theorem integrateN_zero_force_binary32 (N : nat) (node : @Node IEEE) (dt : spec_float) :
  is_number dt ->
  force node = vzero ->
  let inc := vscale (velocity node) dt in
  force (integrateN N node dt) = vzero /\
  same_vec (velocity (integrateN N node dt)) (velocity node) /\
  same_vec (position (integrateN N node dt)) (addN N inc (position node)) /\
  ((0 < N)%nat ->
   exact_mul (vx (velocity node)) dt ->
   (forall k, (k < N)%nat -> exact_add (vx (addN k inc (position node))) (vx inc)) ->
   is_number (vx (position (integrateN N node dt))) /\
   (SF2Q (vx (position (integrateN N node dt)))
    == SF2Q (vx (position node))
       + SF2Q (vx (velocity node)) * SF2Q dt * inject_Z (Z.of_nat N))%Q) /\
  ((0 < N)%nat ->
   exact_mul (vy (velocity node)) dt ->
   (forall k, (k < N)%nat -> exact_add (vy (addN k inc (position node))) (vy inc)) ->
   is_number (vy (position (integrateN N node dt))) /\
   (SF2Q (vy (position (integrateN N node dt)))
    == SF2Q (vy (position node))
       + SF2Q (vy (velocity node)) * SF2Q dt * inject_Z (Z.of_nat N))%Q).
Proof.
  intros Hdt Hf inc. subst inc.
  destruct (integrateN_no_force N node dt (velocity node) Hdt Hf) as (Hf' & Hv & [Hpx Hpy]).
  { split; apply same_float_refl. }
  split; [done|]. split; [done|]. split; [done|].
  split; intros HN [_ Hmul] Hadd.
  - destruct (addN_exact vx N _ (position node) (fun _ _ => eq_refl) Hadd HN) as [Hnum Hsum].
    apply same_SF2Q in Hpx as [Hq Hn]. split; [by apply Hn|].
    rewrite Hq, Hsum. cbn [vx vscale]. rewrite Hmul. ring.
  - destruct (addN_exact vy N _ (position node) (fun _ _ => eq_refl) Hadd HN) as [Hnum Hsum].
    apply same_SF2Q in Hpy as [Hq Hn]. split; [by apply Hn|].
    rewrite Hq, Hsum. cbn [vy vscale]. rewrite Hmul. ring.
Qed.

Lemma integrateN_zero_force_binary32_witness :
  (SF2Q (vx (position (integrateN 4 (set_velocity (nodeI 0 0 10) (mkVec (fofZ 1) (fofZ 0)))
                          (fdiv (fofZ 1) (fofZ 2)))))
   == SF2Q (fofZ 0) + SF2Q (fofZ 1) * SF2Q (fdiv (fofZ 1) (fofZ 2)) * inject_Z (Z.of_nat 4))%Q.
Proof.
  refine (proj2 (proj1 (proj2 (proj2 (proj2 (integrateN_zero_force_binary32 4
            (set_velocity (nodeI 0 0 10) (mkVec (fofZ 1) (fofZ 0)))
            (fdiv (fofZ 1) (fofZ 2)) _ _)))) _ _ _)).
  - exact I.
  - reflexivity.
  - lia.
  - vm_compute. by split.
  - intros k Hk.
    destruct k as [|[|[|[|k]]]]; [| | | |lia]; vm_compute; by split.
Defined.
End Integration.

(** ** Further facts about the loops of [main] *)

Section Loops.
Context {A : Arith}.
Implicit Types (n node : Node) (nodes ns : list Node) (i j k : nat).

Lemma fmap_insert_same {B : Type} (g : Node -> B) i n n' ns :
  ns !! i = Some n -> g n' = g n -> g <$> <[i := n']> ns = g <$> ns.
Proof.
  intros Hi Hg. rewrite list_fmap_insert, Hg.
  apply list_insert_id. by rewrite list_lookup_fmap, Hi.
Qed.

Lemma updateForces_insert i nodes node :
  nodes !! i = Some node ->
  updateForces i nodes = <[i := set_force node (netForce i node nodes)]> nodes.
Proof.
  intros Hi. unfold updateForces, netForce, for_each.
  assert (Hlt : i < length nodes) by (by eapply lookup_lt_Some).
  rewrite <- (list_insert_id nodes i (set_force node (force node))) at 1
    by (by rewrite set_force_id).
  generalize (force node) as f. generalize (seq 0 (length nodes)) as l.
  induction l as [|j l IH]; intros f; simpl; [done|].
  destruct (decide (i <> j)) as [Hij|_]; [|apply IH].
  rewrite list_lookup_insert_eq by done.
  rewrite list_lookup_insert_ne by done.
  destruct (nodes !! j) as [other|]; [|apply IH].
  rewrite list_insert_insert_eq. apply IH.
Qed.

(** [updateForces(node, nodes)] stores in [node.force] the force the node
    had plus the sum, in index order, of [calculateForce(node, other)] over
    the other nodes as they were before the call, and leaves every other
    element of the vector as it was. *)
Theorem updateForces_net_force i nodes node :
  nodes !! i = Some node ->
  updateForces i nodes !! i = Some (set_force node (netForce i node nodes)) /\
  forall k, k <> i -> updateForces i nodes !! k = nodes !! k.
Proof.
  intros Hi. rewrite (updateForces_insert i nodes node Hi). split.
  - apply list_lookup_insert_eq. by eapply lookup_lt_Some.
  - intros k Hk. by apply list_lookup_insert_ne.
Qed.

Lemma force_only_keeps {B : Type} (g : Node -> B) i nodes ns :
  force_only i nodes ns ->
  (forall n f, g (set_force n f) = g n) ->
  g <$> ns = g <$> nodes.
Proof. intros [f ->] Hg. by apply fmap_alter_set_force. Qed.

(** [applyBarnesHut(node, nodes, center, size)] changes nothing but the
    accumulated force of [node], in either branch: every node keeps its
    position, velocity, shape and colour, and the forces change at most at
    the index of [node]. *)
Theorem applyBarnesHut_frame i nodes center size :
  length (applyBarnesHut i nodes center size) = length nodes /\
  position <$> applyBarnesHut i nodes center size = position <$> nodes /\
  velocity <$> applyBarnesHut i nodes center size = velocity <$> nodes /\
  shape <$> applyBarnesHut i nodes center size = shape <$> nodes /\
  color <$> applyBarnesHut i nodes center size = color <$> nodes /\
  exists f, force <$> applyBarnesHut i nodes center size = <[i := f]> (force <$> nodes).
Proof.
  pose proof (applyBarnesHut_force_only i nodes center size) as Hfo.
  rewrite (force_only_keeps position _ _ _ Hfo), (force_only_keeps velocity _ _ _ Hfo),
    (force_only_keeps shape _ _ _ Hfo), (force_only_keeps color _ _ _ Hfo) by done.
  destruct Hfo as [f ->]. rewrite length_alter. repeat split.
  exists f. apply list_eq. intros k.
  destruct (decide (k = i)) as [->|Hk].
  - rewrite list_lookup_fmap, list_lookup_alter_eq.
    destruct (nodes !! i) as [n|] eqn:Hi; simpl.
    + rewrite list_lookup_insert_eq; [done|].
      rewrite length_fmap. by eapply lookup_lt_Some.
    + rewrite list_insert_ge; [by rewrite list_lookup_fmap, Hi|].
      rewrite length_fmap. by apply lookup_ge_None.
  - rewrite list_lookup_insert_ne by done.
    by rewrite !list_lookup_fmap, list_lookup_alter_ne.
Qed.

Lemma accumulation_keeps {B : Type} (g : Node -> B) center size nodes :
  (forall n f, g (set_force n f) = g n) ->
  g <$> barnesHutPhase center size (accumulatePhase nodes) = g <$> nodes.
Proof.
  intros Hg. unfold barnesHutPhase.
  apply (for_each_inv (fun ns => g <$> ns = g <$> nodes)).
  - unfold accumulatePhase.
    apply (for_each_inv (fun ns => g <$> ns = g <$> nodes)); [done|].
    intros i ns Hns.
    by rewrite (force_only_keeps g _ _ _ (updateForces_force_only i ns)).
  - intros i ns Hns.
    by rewrite (force_only_keeps g _ _ _ (applyBarnesHut_force_only i ns center size)).
Qed.

(** The two accumulation loops of a turn move nothing: after both, every
    node has the position, velocity, shape and colour it had, so each
    force of the turn is computed from the positions at the top of the
    turn. *)
Theorem accumulation_moves_nothing center size nodes :
  let ns := barnesHutPhase center size (accumulatePhase nodes) in
  length ns = length nodes /\
  position <$> ns = position <$> nodes /\
  velocity <$> ns = velocity <$> nodes /\
  shape <$> ns = shape <$> nodes /\
  color <$> ns = color <$> nodes.
Proof.
  simpl. rewrite <- (length_fmap color), !accumulation_keeps by done.
  by rewrite length_fmap.
Qed.

(** The integration loop is [applyForces(node, 0.1f)] on every node, each
    on its own: no node's new state depends on another node. *)
Theorem integratePhase_pointwise nodes k :
  integratePhase nodes !! k = (fun n => applyForces n timeStep) <$> nodes !! k.
Proof. by rewrite integratePhase_map, list_lookup_fmap. Qed.

Lemma resolveAt_keeps {B : Type} (g : Node -> B) i j ns :
  (forall n p, g (set_position n p) = g n) ->
  (forall n s, getRadius s = getRadius (shape n) -> g (set_shape n s) = g n) ->
  g <$> resolveAt i j ns = g <$> ns.
Proof.
  intros Hpos Hshape. unfold resolveAt.
  destruct (ns !! i) as [a|] eqn:Ha; [|done].
  destruct (ns !! j) as [b|] eqn:Hb; [|done].
  destruct (_ && _) eqn:Hguard; [|done].
  apply andb_prop in Hguard as [Hij _]. apply bool_decide_eq_true in Hij.
  simpl. erewrite fmap_insert_same.
  - eapply fmap_insert_same; [done|]. by rewrite Hshape, Hpos.
  - by rewrite list_lookup_insert_ne.
  - by rewrite Hshape, Hpos.
Qed.

Lemma collisionPhase_keeps {B : Type} (g : Node -> B) nodes :
  (forall n p, g (set_position n p) = g n) ->
  (forall n s, getRadius s = getRadius (shape n) -> g (set_shape n s) = g n) ->
  g <$> collisionPhase nodes = g <$> nodes.
Proof.
  intros Hpos Hshape. unfold collisionPhase.
  apply (for_each_inv (fun ns => g <$> ns = g <$> nodes)); [done|].
  intros i ns Hi.
  apply (for_each_inv (fun ns => g <$> ns = g <$> nodes)); [done|].
  intros j ns' Hj. by rewrite resolveAt_keeps.
Qed.

(** The overlap pass only moves nodes: it changes no velocity, no force,
    no radius and no colour, and keeps the number of nodes. *)
Theorem collisionPhase_frame nodes :
  length (collisionPhase nodes) = length nodes /\
  velocity <$> collisionPhase nodes = velocity <$> nodes /\
  force <$> collisionPhase nodes = force <$> nodes /\
  (fun n => getRadius (shape n)) <$> collisionPhase nodes
  = (fun n => getRadius (shape n)) <$> nodes /\
  color <$> collisionPhase nodes = color <$> nodes.
Proof.
  rewrite <- (length_fmap color), !collisionPhase_keeps; try done.
  by rewrite length_fmap.
Qed.

Lemma tick_keeps {B : Type} (g : Node -> B) center size nodes :
  (forall n f, g (set_force n f) = g n) ->
  (forall n v, g (set_velocity n v) = g n) ->
  (forall n p, g (set_position n p) = g n) ->
  (forall n s, getRadius s = getRadius (shape n) -> g (set_shape n s) = g n) ->
  g <$> tick center size nodes = g <$> nodes.
Proof.
  intros Hf Hv Hp Hs. unfold tick.
  rewrite collisionPhase_keeps, integratePhase_map by done.
  rewrite <- list_fmap_compose.
  rewrite <- (accumulation_keeps g center size nodes) by done.
  apply list_fmap_ext. intros k n _. simpl. unfold applyForces.
  by rewrite Hs, Hf, Hp, Hv.
Qed.

(** A turn of the window loop keeps the number of nodes, and the radius
    and the colour of each node, whatever the nodes are. *)
Theorem tick_frame center size nodes :
  length (tick center size nodes) = length nodes /\
  (fun n => getRadius (shape n)) <$> tick center size nodes
  = (fun n => getRadius (shape n)) <$> nodes /\
  color <$> tick center size nodes = color <$> nodes.
Proof.
  rewrite <- (length_fmap color), !tick_keeps; try done.
  by rewrite length_fmap.
Qed.

Lemma resolveAt_synced i j ns : Forall synced ns -> Forall synced (resolveAt i j ns).
Proof.
  intros Hns. unfold resolveAt.
  destruct (ns !! i) as [a|]; [|done].
  destruct (ns !! j) as [b|]; [|done].
  destruct (_ && _); [|done].
  simpl. by repeat apply Forall_insert.
Qed.

Lemma tick_synced center size nodes : Forall synced (tick center size nodes).
Proof.
  unfold tick, collisionPhase.
  apply for_each_inv.
  - rewrite integratePhase_map. apply Forall_fmap, Forall_forall. by intros n _.
  - intros i ns Hi. apply for_each_inv; [done|].
    intros j ns' Hj. by apply resolveAt_synced.
Qed.

(** At the top of every turn of the window loop there are 50 nodes, each
    of radius 10 and each with its shape drawn at its position. *)
Theorem reachable_shapes nodes :
  reachable nodes ->
  length nodes = 50%nat /\
  Forall (fun n => getRadius (shape n) = fofZ 10 /\ getPosition (shape n) = position n) nodes.
Proof.
  induction 1 as [rs Hrs|center size nodes _ [Hlen Hall]].
  - split; [by unfold initNodes; rewrite length_map|].
    unfold initNodes. apply Forall_fmap, Forall_forall. by intros [[x y] c] _.
  - split.
    { rewrite <- (length_fmap color), tick_keeps by done. by rewrite length_fmap. }
    apply Forall_and. split; [|apply tick_synced].
    apply (Forall_fmap (fun n => getRadius (shape n)) (fun r => r = fofZ 10)).
    rewrite tick_keeps by done.
    apply Forall_fmap. eapply Forall_impl; [exact Hall|]. by intros n [Hr _].
Qed.

(** A loop over the indices, with an invariant that knows which indices
    have had their turn. *)
Lemma for_each_prefix {S : Type} (P : list nat -> S -> Prop) nodes
    (body : nat -> S -> S) (s : S) :
  P [] s ->
  (forall pre i s, P pre s -> P (pre ++ [i]) (body i s)) ->
  P (seq 0 (length nodes)) (for_each nodes body s).
Proof.
  intros Hs Hbody. unfold for_each.
  assert (H : forall l pre s, P pre s -> P (pre ++ l) (foldl (fun s i => body i s) s l)).
  { induction l as [|i l IH]; intros pre s' Hs'; simpl.
    - by rewrite app_nil_r.
    - rewrite cons_middle, (assoc_L (++) pre [i] l). apply IH, Hbody, Hs'. }
  apply (H (seq 0 (length nodes)) [] s Hs).
Qed.

Lemma insert_as_alter (f : Node -> Node) i nodes n :
  nodes !! i = Some n -> <[i := f n]> nodes = alter f i nodes.
Proof.
  intros Hi. apply list_eq. intros k. destruct (decide (k = i)) as [->|Hk].
  - rewrite list_lookup_insert_eq by (by eapply lookup_lt_Some).
    by rewrite list_lookup_alter_eq, Hi.
  - by rewrite list_lookup_insert_ne, list_lookup_alter_ne.
Qed.

(** [applyBarnesHut] adds one vector to the force of its node. *)
Lemma applyBarnesHut_adds i nodes center size :
  exists X, applyBarnesHut i nodes center size
            = alter (fun n => set_force n (vadd (force n) X)) i nodes.
Proof.
  unfold applyBarnesHut.
  destruct (nodes !! i) as [node|] eqn:Hi.
  - destruct (dltb _ _).
    + destruct (nodes !! 0%nat) as [first|] eqn:H0.
      * eexists. by apply (insert_as_alter (fun n => set_force n (vadd (force n) _))).
      * (* no first node: the vector is empty, which [Hi] excludes *)
        by destruct nodes.
    + destruct (for_each _ _ _) as [c m].
      eexists. by apply (insert_as_alter (fun n => set_force n (vadd (force n) _))).
  - exists vzero. apply list_eq. intros k. destruct (decide (k = i)) as [->|Hk].
    + by rewrite list_lookup_alter_eq, Hi.
    + by rewrite list_lookup_alter_ne.
Qed.
End Loops.

Lemma reachable_shapes_witness :
  length (@tick IEEE (@mkVec IEEE (B32.ofZ 400) (B32.ofZ 300)) (B32.ofZ 800)
            (initNodes (replicate 50 (0, 0, (0, 0, 0))%Z))) = 50%nat.
Proof.
  refine (proj1 (reachable_shapes _ _)).
  apply reach_tick, reach_init. reflexivity.
Defined.

(** ** The edges *)

Lemma edgePairs_elem (n i j : nat) : (i, j) ∈ edgePairs n <-> i < j < n.
Proof.
  unfold edgePairs. rewrite list_elem_of_bind. split.
  - intros (i' & Hin & Hi'). apply list_elem_of_fmap in Hin as (j' & Heq & Hj').
    injection Heq as -> ->. apply elem_of_seq in Hi', Hj'. lia.
  - intros [Hij Hjn]. exists i. split.
    + apply list_elem_of_fmap. exists j. split; [done|]. apply elem_of_seq. lia.
    + apply elem_of_seq. lia.
Qed.

Lemma edgePairs_NoDup (n : nat) : NoDup (edgePairs n).
Proof.
  unfold edgePairs. apply NoDup_bind.
  - intros i1 i2 [i j] _ _ H1 H2.
    apply list_elem_of_fmap in H1 as (j1 & Heq1 & _), H2 as (j2 & Heq2 & _).
    congruence.
  - intros i _. apply NoDup_fmap_2; [|apply NoDup_seq]. by intros j1 j2 [= ->].
  - apply NoDup_seq.
Qed.

Lemma edgePairs_from_length (n k a : nat) :
  a + k = n ->
  2 * length (seq a k ≫= (fun i => pair i <$> seq (S i) (n - S i))) = k * (k - 1).
Proof.
  revert a. induction k as [|k IH]; intros a Hn; [done|].
  cbn [seq]. rewrite bind_cons, length_app, length_fmap, length_seq.
  specialize (IH (S a) ltac:(lia)). nia.
Qed.

Lemma edgePairs_length (n : nat) : 2 * length (edgePairs n) = n * (n - 1).
Proof. by apply edgePairs_from_length. Qed.

Section Edges.
Context {A : Arith}.

Lemma endpoints_buildEdges (n : nat) colors :
  endpoints <$> buildEdges n colors = edgePairs n.
Proof.
  unfold buildEdges. apply list_eq. intros k.
  rewrite list_lookup_fmap, list_lookup_imap.
  by destruct (edgePairs n !! k) as [[i j]|].
Qed.

(** The edge loop of [main] builds [n * (n - 1) / 2] edges for [n] nodes:
    1225 for the 50 nodes of the program. *)
Theorem buildEdges_count (n : nat) colors :
  2 * length (buildEdges n colors) = n * (n - 1) /\
  length (buildEdges 50 colors) = 1225%nat.
Proof.
  assert (Hlen : forall m, 2 * length (buildEdges m colors) = m * (m - 1)).
  { intros m. rewrite <- (length_fmap endpoints), endpoints_buildEdges.
    apply edgePairs_length. }
  split; [apply Hlen|]. specialize (Hlen 50%nat). lia.
Qed.

(** The edges form the complete graph on the nodes: there is an edge from
    node [i] to node [j] exactly when [i < j < n], no two edges have the
    same endpoints, so every pair of distinct nodes is joined once, in
    one direction, and no node is joined to itself. *)
Theorem buildEdges_complete_graph (n : nat) colors :
  NoDup (endpoints <$> buildEdges n colors) /\
  forall i j,
    (exists e, e ∈ buildEdges n colors /\ source e = i /\ target e = j) <-> i < j < n.
Proof.
  split; [rewrite endpoints_buildEdges; apply edgePairs_NoDup|].
  intros i j. rewrite <- edgePairs_elem, <- (endpoints_buildEdges n colors).
  rewrite list_elem_of_fmap. split.
  - intros (e & He & <- & <-). by exists e.
  - intros (e & Heq & He). injection Heq as -> ->. by exists e.
Qed.
End Edges.

(** ** Further facts in binary32 *)

Section IEEEMore.
#[local] Existing Instance IEEE.

Lemma binary_round_aux_opp (p em : Z) (s : bool) (mx ex : Z) (lx : location) :
  binary_round_aux p em (negb s) mx ex lx = SFopp (binary_round_aux p em s mx ex lx).
Proof.
  unfold binary_round_aux.
  destruct (shr_fexp p em mx ex lx) as [mrs e'].
  destruct (shr_fexp p em _ e' loc_Exact) as [mrs' e''].
  destruct (shr_m mrs') as [|m|m]; [done| |done].
  by destruct (Z.leb e'' (em - p)).
Qed.

Lemma binary_round_opp (p em : Z) (s : bool) (m : positive) (e : Z) :
  binary_round p em (negb s) m e = SFopp (binary_round p em s m e).
Proof.
  unfold binary_round. destruct (shl_align m e _) as [mz ez].
  apply binary_round_aux_opp.
Qed.

Lemma binary_normalize_opp (p em m e : Z) :
  same_float (binary_normalize p em (- m) e false) (SFopp (binary_normalize p em m e false)).
Proof.
  destruct m as [|m|m]; simpl.
  - right. by exists false, true.
  - left. apply (binary_round_opp p em false).
  - left. apply (binary_round_opp p em true).
Qed.

(** [y - x] is the opposite of [x - y], up to the sign of a zero. *)
Lemma sub_antisym (x y : spec_float) :
  same_float (@fsub IEEE y x) (SFopp (@fsub IEEE x y)).
Proof.
  destruct x as [sx|sx| |sx mx ex], y as [sy|sy| |sy my ey]; simpl;
    try (by left);
    try (by (destruct sx, sy; (by left) || (right; eauto))).
  rewrite (Z.min_comm ey ex).
  set (X := cond_Zopp sx _). set (Y := cond_Zopp sy _).
  replace (Y - X)%Z with (- (X - Y))%Z by lia.
  apply binary_normalize_opp.
Qed.

Lemma widen_opp (z : spec_float) : @widen IEEE (SFopp z) = SFopp (@widen IEEE z).
Proof. destruct z as [s|s| |s m e]; try done. apply binary_round_opp. Qed.

Lemma square_opp (w : spec_float) : @dpow2 IEEE (SFopp w) = @dpow2 IEEE w.
Proof. destruct w as [s|s| |s m e]; try done; by destruct s. Qed.

(** the square the program takes of a difference does not see its sign *)
Lemma square_of_difference (x y : spec_float) :
  @dpow2 IEEE (widen (fsub y x)) = @dpow2 IEEE (widen (fsub x y)).
Proof.
  destruct (sub_antisym x y) as [->|(s & s' & Hyx & Hxy)].
  - by rewrite widen_opp, square_opp.
  - rewrite Hyx. destruct (@fsub IEEE x y) as [t|t| |t m e]; try done.
    by destruct s, t.
Qed.

Lemma fadd_comm (x y : spec_float) : @fadd IEEE x y = @fadd IEEE y x.
Proof.
  destruct x as [sx|sx| |sx mx ex], y as [sy|sy| |sy my ey]; simpl;
    try done; try (by destruct sx, sy).
  by rewrite (Z.min_comm ey ex), Z.add_comm.
Qed.

(** [overlap(a, b)] and [overlap(b, a)] return the same, for all float
    positions and radii, NaN and infinities included. *)
Theorem overlap_symmetric (a b : @Node IEEE) : overlap a b = overlap b a.
Proof.
  unfold overlap, norm, dnorm.
  rewrite (square_of_difference (vx (position a)) (vx (position b))).
  rewrite (square_of_difference (vy (position a)) (vy (position b))).
  by rewrite (fadd_comm (getRadius (shape a))).
Qed.

(** the difference of a float and itself is a zero, or NaN *)
Lemma sub_self (x : spec_float) : zero_or_nan (@fsub IEEE x x).
Proof.
  destruct x as [s|s| |s m e]; simpl; try done; try (by destruct s).
  rewrite Z.min_id. unfold shl_align. by rewrite !Z.sub_diag.
Qed.

(** The force of a node on itself is (NaN, NaN), whatever the node. *)
Lemma calculateForce_self (a : @Node IEEE) : calculateForce a a = nanv.
Proof.
  pose proof (sub_self (vx (position a))) as Hx.
  pose proof (sub_self (vy (position a))) as Hy.
  unfold calculateForce.
  set (X := widen (fmul (fmul G (getRadius (shape a))) (getRadius (shape a)))).
  clearbody X. unfold vsub. cbn [vx vy].
  set (dx := fsub (vx (position a)) (vx (position a))) in *.
  set (dy := fsub (vy (position a)) (vy (position a))) in *.
  clearbody dx dy.
  destruct dx as [sx|?| |? ? ?]; try done; destruct dy as [sy|?| |? ? ?]; try done;
    destruct X as [s|s| |s m e]; try destruct sx; try destruct sy; reflexivity.
Qed.

(** In the branch of [applyBarnesHut] that takes [nodes[0]] for the far
    region, the first node is compared with itself: its force becomes
    (NaN, NaN) and the rest of the vector is left as it is. *)
Theorem applyBarnesHut_first_node_far (node : @Node IEEE) (rest : list (@Node IEEE))
    (center : @Vector2f IEEE) (size : flt) :
  dltb (ddiv (widen size)
             (dnorm (fsub (vx center) (vx (position node)))
                    (fsub (vy center) (vy (position node)))))
       (widen theta) = true ->
  applyBarnesHut 0 (node :: rest) center size = set_force node nanv :: rest.
Proof.
  intros Hfar. unfold applyBarnesHut.
  change ((node :: rest) !! 0%nat) with (Some node). cbv beta iota.
  rewrite Hfar, calculateForce_self, vadd_nan_r. reflexivity.
Qed.

Lemma fdiv_opp (z d : spec_float) : @fdiv IEEE (SFopp z) d = SFopp (@fdiv IEEE z d).
Proof.
  destruct z as [s|s| |s m e], d as [sd|sd| |sd md ed]; simpl; try done;
    try (by destruct s, sd).
  destruct (SFdiv_core_binary _ _ _ _ _ _) as [[mz ez] lz].
  rewrite <- binary_round_aux_opp. by destruct s, sd.
Qed.

Lemma fmul_opp (z m : spec_float) : @fmul IEEE (SFopp z) m = SFopp (@fmul IEEE z m).
Proof.
  destruct z as [s|s| |s mz e], m as [sm|sm| |sm mm em]; simpl; try done;
    try (by destruct s, sm).
  rewrite <- binary_round_aux_opp. by destruct s, sm.
Qed.

Lemma opposite_fdiv (z w d : spec_float) :
  same_float z (SFopp w) -> same_float (@fdiv IEEE z d) (SFopp (@fdiv IEEE w d)).
Proof.
  intros [->|(s & s' & -> & Hw)]; [left; apply fdiv_opp|].
  destruct w as [t|t| |t m e]; try done.
  destruct d as [sd|sd| |sd md ed]; simpl; try (by left); right; eauto.
Qed.

Lemma opposite_fmul (z w m : spec_float) :
  same_float z (SFopp w) -> same_float (@fmul IEEE z m) (SFopp (@fmul IEEE w m)).
Proof.
  intros [->|(s & s' & -> & Hw)]; [left; apply fmul_opp|].
  destruct w as [t|t| |t mw e]; try done.
  destruct m as [sm|sm| |sm mm em]; simpl; try (by left); right; eauto.
Qed.

(** Between two nodes of the same radius, as all nodes of [main] are, the
    force on [a] from [b] is the opposite of the force on [b] from [a],
    component by component and up to the sign of a zero: rounding does not
    break the symmetry of the pull. *)
Theorem calculateForce_opposite (a b : @Node IEEE) :
  getRadius (shape a) = getRadius (shape b) ->
  same_float (vx (calculateForce a b)) (SFopp (vx (calculateForce b a))) /\
  same_float (vy (calculateForce a b)) (SFopp (vy (calculateForce b a))).
Proof.
  intros Hr. unfold calculateForce. rewrite Hr.
  set (P := fmul (fmul G (getRadius (shape b))) (getRadius (shape b))).
  assert (Hd : norm (vx (vsub (position b) (position a))) (vy (vsub (position b) (position a)))
               = norm (vx (vsub (position a) (position b))) (vy (vsub (position a) (position b)))).
  { unfold norm, dnorm, vsub. cbn [vx vy]. by rewrite !(square_of_difference (_ (position a))). }
  rewrite Hd. set (d := norm _ _). set (m := narrow _).
  destruct (fneqb d (fofZ 0)); unfold vscale, vdiv, vsub; cbn [vx vy];
    split; apply opposite_fmul; try apply opposite_fdiv; apply sub_antisym.
Qed.
End IEEEMore.

(** ** NaN in the window loop *)

Section Poison.
#[local] Existing Instance IEEE.
Implicit Types (n node : @Node IEEE) (nodes ns : list (@Node IEEE)).

Lemma vadd_nan_l (v : @Vector2f IEEE) : vadd nanv v = nanv.
Proof. by destruct v. Qed.

Lemma calculateForce_from_nan (a b : @Node IEEE) :
  position a = nanv -> calculateForce a b = nanv.
Proof.
  intros Ha. unfold calculateForce. rewrite Ha, vsub_nan_r. reflexivity.
Qed.

Lemma overlap_nan (a b : @Node IEEE) : position a = nanv -> overlap a b = false.
Proof. intros Ha. unfold overlap. rewrite Ha. reflexivity. Qed.

Lemma applyForces_nan n (dt : flt) :
  force n = nanv -> position (applyForces n dt) = nanv.
Proof.
  intros Hf. unfold applyForces. cbn [position velocity set_velocity set_position
    set_force set_shape]. rewrite Hf.
  change (vscale nanv dt) with nanv. by rewrite vadd_nan_r, vadd_nan_r.
Qed.

Lemma netForce_nan i node nodes j other :
  i <> j -> nodes !! j = Some other -> calculateForce node other = nanv ->
  netForce i node nodes = nanv.
Proof.
  intros Hij Hj Hnan. unfold netForce, for_each.
  assert (Hin : j ∈ seq 0 (length nodes)).
  { apply elem_of_seq. apply lookup_lt_Some in Hj. lia. }
  revert Hin. generalize (force node) as f. generalize (seq 0 (length nodes)) as l.
  set (body := fun (f : Vector2f) (j : nat) => _).
  assert (Hstay : forall l, foldl body nanv l = nanv).
  { induction l as [|a l IH]; simpl; [done|].
    unfold body at 2. destruct (decide (i <> a)); [|done].
    destruct (nodes !! a); [|done]. by rewrite vadd_nan_l. }
  induction l as [|a l IH]; intros f Hin; [by apply elem_of_nil in Hin|].
  apply elem_of_cons in Hin as [<-|Hin]; simpl.
  - unfold body at 2. destruct (decide (i <> j)); [|done].
    by rewrite Hj, Hnan, vadd_nan_r.
  - by apply IH.
Qed.

Lemma updateForces_out_of_range i nodes : nodes !! i = None -> updateForces i nodes = nodes.
Proof.
  intros Hi. destruct (updateForces_force_only i nodes) as [f ->].
  apply list_eq. intros k. destruct (decide (k = i)) as [->|Hk].
  - by rewrite list_lookup_alter_eq, Hi.
  - by rewrite list_lookup_alter_ne.
Qed.

Lemma accumulatePhase_nan nodes k nk :
  2 <= length nodes -> nodes !! k = Some nk -> position nk = nanv ->
  Forall (fun n => force n = nanv) (accumulatePhase nodes).
Proof.
  intros Hlen Hk Hnk.
  set (P := fun (pre : list nat) ns =>
    position <$> ns = position <$> nodes /\
    forall i n, i ∈ pre -> ns !! i = Some n -> force n = nanv).
  assert (HP : P (seq 0 (length nodes)) (accumulatePhase nodes)).
  { unfold accumulatePhase. apply for_each_prefix.
    - split; [done|]. intros i n Hin. by apply elem_of_nil in Hin.
    - intros pre i ns [Hpos Hpre].
      destruct (ns !! i) as [node|] eqn:Hi.
      2:{ rewrite updateForces_out_of_range by done. split; [done|].
          intros i' n Hin Hi'. apply elem_of_app in Hin as [Hin|Hin]; [by eapply Hpre|].
          apply list_elem_of_singleton in Hin as ->. congruence. }
      rewrite (updateForces_insert i ns node Hi).
      assert (Hlens : length ns = length nodes).
      { by rewrite <- (length_fmap position), Hpos, length_fmap. }
      assert (Hposk : forall j n, ns !! j = Some n -> position <$> nodes !! j = Some (position n)).
      { intros j n Hj. by rewrite <- list_lookup_fmap, <- Hpos, list_lookup_fmap, Hj. }
      assert (Hnet : netForce i node ns = nanv).
      { destruct (decide (i = k)) as [->|Hik].
        - assert (Hnode : position node = nanv).
          { apply Hposk in Hi. rewrite Hk in Hi. simpl in Hi. congruence. }
          set (j := if decide (k = 0)%nat then 1%nat else 0%nat).
          assert (Hj : j < length ns) by (unfold j; destruct (decide (k = 0)%nat); lia).
          apply lookup_lt_is_Some in Hj as [other Hother].
          apply (netForce_nan k node ns j other); [|done|by apply calculateForce_from_nan].
          unfold j. destruct (decide (k = 0)%nat); lia.
        - assert (Hk' : k < length ns) by (rewrite Hlens; by eapply lookup_lt_Some).
          apply lookup_lt_is_Some in Hk' as [other Hother].
          apply (netForce_nan i node ns k other); [done|done|].
          apply calculateForce_to_nan.
          apply Hposk in Hother. rewrite Hk in Hother. simpl in Hother. congruence. }
      split.
      + rewrite <- Hpos. by eapply fmap_insert_same.
      + intros i' n Hin Hi'. destruct (decide (i' = i)) as [->|Hne].
        * rewrite list_lookup_insert_eq in Hi' by (by eapply lookup_lt_Some).
          injection Hi' as <-. exact Hnet.
        * rewrite list_lookup_insert_ne in Hi' by done.
          apply elem_of_app in Hin as [Hin|Hin]; [by eapply Hpre|].
          by apply list_elem_of_singleton in Hin. }
  destruct HP as [Hpos Hall]. apply Forall_lookup. intros i n Hi.
  apply (Hall i n); [|done]. apply elem_of_seq.
  apply lookup_lt_Some in Hi.
  rewrite <- (length_fmap position), Hpos, length_fmap in Hi. lia.
Qed.

Lemma barnesHutPhase_nan center size nodes :
  Forall (fun n => force n = nanv) nodes ->
  Forall (fun n => force n = nanv) (barnesHutPhase center size nodes).
Proof.
  intros Hall. unfold barnesHutPhase. apply for_each_inv; [done|].
  intros i ns Hns. destruct (applyBarnesHut_adds i ns center size) as [X ->].
  apply Forall_alter; [done|]. intros n _ Hn. simpl. by rewrite Hn, vadd_nan_l.
Qed.

Lemma collisionPhase_nan nodes :
  Forall (fun n => position n = nanv) nodes -> collisionPhase nodes = nodes.
Proof.
  intros Hall. unfold collisionPhase.
  apply (for_each_inv (fun ns => ns = nodes)); [done|]. intros i ns ->.
  apply (for_each_inv (fun ns => ns = nodes)); [done|]. intros j ns ->.
  unfold resolveAt.
  destruct (nodes !! i) as [a|] eqn:Ha; [|done].
  destruct (nodes !! j) as [b|]; [|done].
  rewrite (overlap_nan a b) by (by eapply (Forall_lookup_1 _ _ _ _ Hall)).
  by rewrite andb_false_r.
Qed.

(** One node without a position costs every node its position within one
    turn of the window loop: if the position of some node is (NaN, NaN)
    and there are at least two nodes, then after the turn the position of
    every node is (NaN, NaN).  (Every force of the turn involves the lost
    node or is computed for it, [applyForces] carries the NaN into
    velocity and position, and the overlap pass sees no overlap.) *)
Theorem nan_spreads_in_one_tick center size nodes k nk :
  2 <= length nodes -> nodes !! k = Some nk -> position nk = nanv ->
  Forall (fun n => position n = nanv) (tick center size nodes).
Proof.
  intros Hlen Hk Hnk. unfold tick.
  assert (Hint : Forall (fun n => position n = nanv)
            (integratePhase (barnesHutPhase center size (accumulatePhase nodes)))).
  { rewrite integratePhase_map. apply Forall_fmap.
    eapply Forall_impl; [by eapply barnesHutPhase_nan, accumulatePhase_nan|].
    intros n Hn. by apply applyForces_nan. }
  by rewrite collisionPhase_nan.
Qed.
End Poison.

Lemma applyBarnesHut_first_node_far_witness :
  @applyBarnesHut IEEE 0 [nodeI 0 0 10; nodeI 100 0 10]
     (@mkVec IEEE (B32.ofZ 400) (B32.ofZ 300)) (B32.ofZ 100)
  = [set_force (nodeI 0 0 10) nanv; nodeI 100 0 10].
Proof. apply applyBarnesHut_first_node_far. reflexivity. Defined.

Lemma calculateForce_opposite_witness :
  same_float (vx (@calculateForce IEEE (nodeI 0 0 10) (nodeI 3 4 10)))
             (SFopp (vx (@calculateForce IEEE (nodeI 3 4 10) (nodeI 0 0 10)))).
Proof. refine (proj1 (calculateForce_opposite _ _ _)). reflexivity. Defined.

Lemma updateForces_net_force_witness :
  @updateForces IEEE 0 [nodeI 0 0 10; nodeI 100 0 10] !! 0%nat
  = Some (set_force (nodeI 0 0 10)
            (netForce 0 (nodeI 0 0 10) [nodeI 0 0 10; nodeI 100 0 10])).
Proof. refine (proj1 (updateForces_net_force _ _ _ _)). reflexivity. Defined.

Lemma nan_spreads_in_one_tick_witness :
  Forall (fun n => position n = nanv)
    (@tick IEEE (@mkVec IEEE (B32.ofZ 400) (B32.ofZ 300)) (B32.ofZ 800)
       [set_position (nodeI 0 0 10) nanv; nodeI 100 0 10; nodeI 200 50 10]).
Proof.
  apply (nan_spreads_in_one_tick _ _ _ 0%nat (set_position (nodeI 0 0 10) nanv));
    [simpl; lia|reflexivity|reflexivity].
Defined.
